(** * Sampling utilities of the uncertainty-quantification course notebooks

    A shallow embedding of the hand-written generators and samplers of the
    notebook "Common Random Variables and How to Sample Them":
    [middlesquare], [lcg], [unif_lcg], [sample_bernoulli], [sample_discrete]
    and [sample_exp].

    Python integers are unbounded, so they are [Z].  Python floats are IEEE
    binary64 numbers, so they are Rocq's primitive [float]s, whose operations
    are the same binary64 operations.  [sample_exp] calls the library
    logarithm [np.log], which is not part of the notebook: it is a parameter
    of the embedding.

    A draw [u = np.random.rand()] is an explicit argument of each sampler; the
    library documents it to lie in the half-open interval [0, 1). *)

From Stdlib Require Import ZArith List Bool Ascii Lia.
From Stdlib Require Import Floats Uint63.
From Stdlib Require Import QArith Qreals Reals Lra.
Import ListNotations.

(** ** Middle-square generator *)

Module MiddleSquare.
Local Open Scope Z_scope.

(** [len(s)] *)
Definition len (s : list ascii) : Z := Z.of_nat (length s).

Definition digit_char (d : Z) : ascii := ascii_of_nat (48 + Z.to_nat d).

Definition is_digit (c : ascii) : bool :=
  ((48 <=? nat_of_ascii c) && (nat_of_ascii c <=? 57))%nat.

Definition digit_val (c : ascii) : Z := Z.of_nat (nat_of_ascii c) - 48.

(** Decimal digits of [n >= 0], least significant produced first and pushed
    in front of [acc]; [fuel] bounds the number of digits. *)
Fixpoint digits_acc (fuel : nat) (n : Z) (acc : list ascii) : list ascii :=
  match fuel with
  | O => acc
  | S f =>
      let acc := digit_char (n mod 10) :: acc in
      if n / 10 =? 0 then acc else digits_acc f (n / 10) acc
  end.

(** A number below [2 ^ k] has at most [k] decimal digits. *)
Definition str_nonneg (n : Z) : list ascii :=
  digits_acc (S (Z.to_nat (Z.log2 n))) n [].

(** [str(n)] for a Python integer. *)
Definition str (n : Z) : list ascii :=
  if n <? 0 then "-"%char :: str_nonneg (- n) else str_nonneg n.

Definition is_sign (c : ascii) : bool :=
  (Ascii.eqb c "-" || Ascii.eqb c "+")%char.

(** [s.zfill(width)]: zeros go after a leading sign. *)
Definition zfill (s : list ascii) (width : Z) : list ascii :=
  if width <=? len s then s
  else
    let pad := repeat "0"%char (Z.to_nat (width - len s)) in
    match s with
    | c :: rest => if is_sign c then c :: pad ++ rest else pad ++ s
    | [] => pad
    end.

(** A slice bound brought into [0, len], Python's way. *)
Definition slice_index (i n : Z) : nat :=
  Z.to_nat (Z.min n (Z.max 0 (if i <? 0 then i + n else i))).

(** [s[i:]] and [s[:j]] *)
Definition slice_from (s : list ascii) (i : Z) : list ascii :=
  skipn (slice_index i (len s)) s.
Definition slice_to (s : list ascii) (j : Z) : list ascii :=
  firstn (slice_index j (len s)) s.

Fixpoint parse_digits (s : list ascii) (acc : Z) : option Z :=
  match s with
  | [] => Some acc
  | c :: rest =>
      if is_digit c then parse_digits rest (10 * acc + digit_val c) else None
  end.

(** [int(s)]: an optional sign and at least one digit; [None] is
    [ValueError].  (Surrounding white space, which [int] also accepts, does
    not occur in what [str] and [zfill] build.) *)
Definition int (s : list ascii) : option Z :=
  match s with
  | [] => None
  | c :: rest =>
      if is_sign c then
        match rest with
        | [] => None
        | _ :: _ =>
            option_map (fun v => if Ascii.eqb c "-" then - v else v)
                       (parse_digits rest 0)
        end
      else parse_digits s 0
  end.

(** [def middlesquare(s, digits=4)], Python 2: [/] on integers is floor
    division and [-digits/2] is [(-digits)/2]. *)
Definition middlesquare (s digits : Z) : option Z :=
  let s2 := s ^ 2 in
  let s2_str := zfill (str s2) (2 * digits) in
  let middle_str :=
    slice_to (slice_from s2_str (digits / 2)) ((- digits) / 2) in
  int middle_str.

(** [for _ in range(n): s = middlesquare(s, digits)] *)
Fixpoint middlesquare_iter (n : nat) (s digits : Z) : option Z :=
  match n with
  | O => Some s
  | S k =>
      match middlesquare s digits with
      | None => None
      | Some s' => middlesquare_iter k s' digits
      end
  end.

(** Strings made of decimal digits only. *)
Definition all_digits (s : list ascii) : Prop :=
  Forall (fun c => is_digit c = true) s.

End MiddleSquare.

(** ** Linear congruential generator *)

Module Lcg.

Local Open Scope Z_scope.

(** Default arguments of [lcg], and the globals of the uniform sampler cell. *)
Definition a_default : Z := 123456.
Definition b_default : Z := 978564.
Definition m_default : Z := 6012119.
Definition m : Z := 6012119.
Definition lcg_seed : Z := 123456.

(** [def lcg(x, a, b, m): return (a * x + b) % m].  Python's [%] takes the
    sign of the divisor, as [Z.modulo] does, and raises [ZeroDivisionError]
    when the divisor is zero: that is the [None] here. *)
Definition lcg (x a b m : Z) : option Z :=
  if m =? 0 then None else Some ((a * x + b) mod m).

(** The loop [s = seed; for _ in range(n): s = lcg(s, a, b, m); print s]:
    the list of the printed states. *)
Fixpoint lcg_seq (n : nat) (s a b m : Z) : option (list Z) :=
  match n with
  | O => Some []
  | S k =>
      match lcg s a b m with
      | None => None
      | Some s' =>
          match lcg_seq k s' a b m with
          | None => None
          | Some l => Some (s' :: l)
          end
      end
  end.

(** Conversion of a Python integer to a float, as [int / float] does before
    dividing: the nearest binary64 number, ties to even.  (Python raises
    [OverflowError] for magnitudes beyond the binary64 range, where this
    gives an infinity; no generator state gets near it.) *)
Definition float_of_int (z : Z) : float :=
  SF2Prim (binary_normalize prec emax z 0 false).

(** [unif_lcg]: the global [lcg_state] is threaded explicitly.  The result is
    the new state and the returned float [lcg_state / (1. * m)]. *)
Definition unif_lcg (lcg_state : Z) : option (Z * float) :=
  match lcg lcg_state a_default b_default m_default with
  | None => None
  | Some s => Some (s, (float_of_int s / (1 * float_of_int m))%float)
  end.

(** [n] successive calls of [unif_lcg]: final state and the returned floats,
    oldest first. *)
Fixpoint unif_lcg_calls (n : nat) (lcg_state : Z) : option (Z * list float) :=
  match n with
  | O => Some (lcg_state, [])
  | S k =>
      match unif_lcg lcg_state with
      | None => None
      | Some (s, v) =>
          match unif_lcg_calls k s with
          | None => None
          | Some (s', vs) => Some (s', v :: vs)
          end
      end
  end.

(** The state after [n] calls, when all of them succeed. *)
Definition state_after (n : nat) (lcg_state : Z) : option Z :=
  option_map fst (unif_lcg_calls n lcg_state).

(** The pure state update iterated [n] times. *)
Fixpoint lcg_iter (n : nat) (x : Z) : Z :=
  match n with
  | O => x
  | S k => lcg_iter k ((123456 * x + 978564) mod 6012119)
  end.

(** Whether state [i], divided by [m] as the sampler does, lands in [0, 1). *)
Definition in_unit (i : int) : bool :=
  let v := (of_uint63 i / (1 * of_uint63 6012119))%float in
  ((0 <=? v)%float && (v <? 1)%float).

(** One step of a scan over the states 0, 1, 2, ... *)
Definition scan_step (st : int * bool) : int * bool :=
  let (i, ok) := st in (Uint63.succ i, ok && in_unit i).

End Lcg.

(** ** Samplers driven by a uniform draw *)

Module Sampling.

Local Open Scope float_scope.

(** The range of [np.random.rand()]: [0 <= u < 1]. *)
Definition is_draw (u : float) : bool := (0 <=? u) && (u <? 1).

(** [def sample_bernoulli(theta): u = rand(); if u <= theta: return 1;
    return 0]. *)
Definition sample_bernoulli (theta u : float) : Z :=
  if u <=? theta then 1%Z else 0%Z.

(** The loop of [sample_discrete] over the entries still to visit: [c] is the
    running total and [j] the index of the next entry.

    [for j in range(m): c += p[j]; if u <= c: return j] *)
Fixpoint sample_discrete_loop (p : list float) (u c : float) (j : nat)
  : option nat :=
  match p with
  | [] => None
  | pj :: rest =>
      let c := c + pj in
      if u <=? c then Some j else sample_discrete_loop rest u c (S j)
  end.

(** [sample_discrete(p)] with draw [u]; the running total starts at [0.].
    The source has no [raise] and no validation: a call returns an index, or
    falls off the end of the loop and returns Python's [None] (here [None]). *)
Definition sample_discrete (p : list float) (u : float) : option nat :=
  sample_discrete_loop p u 0 0.

(** Left-to-right float sum, as Python's [sum] and the loop compute it. *)
Definition fsum (l : list float) : float := fold_left PrimFloat.add l 0.

(** The cumulative sum [p[0] + ... + p[j]]. *)
Definition cumsum (p : list float) (j : nat) : float := fsum (firstn (S j) p).

(** The tolerance on the sum of a distribution: the square root of the
    binary64 machine epsilon, [2 ^ -26], which is the one numpy's own
    [choice] applies to its [p] argument. *)
Definition tolerance : float := 0x1p-26.

(** A well-formed distribution: no negative entry, and the entries sum to 1
    within the tolerance. *)
Definition valid_distribution (p : list float) : bool :=
  forallb (fun x => 0 <=? x) p && (abs (fsum p - 1) <=? tolerance).

End Sampling.

(** ** Exponential sampler *)

Module Exponential.

Local Open Scope float_scope.

Section WithLog.

(** [np.log], the library logarithm on binary64 floats. *)
Variable log : float -> float.


End WithLog.

End Exponential.

(** ** Exact values of floats *)

Module Exact.

(** The rational number a finite float denotes (0 for the others). *)
Definition F2Q (x : float) : Q :=
  match Prim2SF x with
  | S754_finite s m e =>
      (inject_Z (if s then Z.neg m else Z.pos m) * Qpower (2 # 1) e)%Q
  | _ => 0%Q
  end.


(** The sum of the entries of a list in exact arithmetic. *)
Definition exact_sum (l : list float) : Q :=
  fold_right Qplus 0%Q (map F2Q l).

End Exact.

(** ** Orbits of a generator *)

Module Orbit.

(** [for _ in range(n): x = step(x)], for a step that may fail. *)
Fixpoint iterate (step : Z -> option Z) (n : nat) (x : Z) : option Z :=
  match n with
  | O => Some x
  | S k =>
      match step x with
      | None => None
      | Some y => iterate step k y
      end
  end.

End Orbit.

(** ** Decimal value of a digit string *)

Module Decimal.
Import MiddleSquare.
Local Open Scope Z_scope.

(** The number a string of digits denotes, read after the prefix value
    [acc]: what [parse_digits] accumulates when no character is rejected. *)
Fixpoint dec_from (s : list ascii) (acc : Z) : Z :=
  match s with
  | [] => acc
  | c :: rest => dec_from rest (10 * acc + digit_val c)
  end.

Definition dec_val (s : list ascii) : Z := dec_from s 0.

End Decimal.

(** * Properties *)

(** ** The middle-square generator *)

Module MiddleSquareFacts.
Import MiddleSquare.
Local Open Scope Z_scope.

(** *** Characters and digits *)

Lemma digit_char_cases (d : Z) (P : Z -> Prop) :
  0 <= d < 10 ->
  P 0 -> P 1 -> P 2 -> P 3 -> P 4 -> P 5 -> P 6 -> P 7 -> P 8 -> P 9 -> P d.
Proof.
  intros H P0 P1 P2 P3 P4 P5 P6 P7 P8 P9.
  assert (E : d = 0 \/ d = 1 \/ d = 2 \/ d = 3 \/ d = 4 \/ d = 5 \/ d = 6 \/
              d = 7 \/ d = 8 \/ d = 9) by lia.
  repeat (destruct E as [-> | E]; [assumption |]). now subst d.
Qed.

Lemma is_digit_digit_char (d : Z) :
  0 <= d < 10 -> is_digit (digit_char d) = true.
Proof.
  intros H. pattern d. apply (digit_char_cases d); [exact H | ..]; reflexivity.
Qed.

Lemma digit_val_digit_char (d : Z) :
  0 <= d < 10 -> digit_val (digit_char d) = d.
Proof.
  intros H. pattern d. apply (digit_char_cases d); [exact H | ..]; reflexivity.
Qed.

Lemma digit_val_range (c : ascii) :
  is_digit c = true -> 0 <= digit_val c <= 9.
Proof.
  unfold is_digit, digit_val. intros H.
  apply andb_prop in H as [H1 H2].
  apply Nat.leb_le in H1, H2. lia.
Qed.

Lemma is_digit_not_sign (c : ascii) : is_digit c = true -> is_sign c = false.
Proof.
  intros H. unfold is_sign.
  destruct (Ascii.eqb_spec c "-") as [-> | _]; [discriminate H |].
  destruct (Ascii.eqb_spec c "+") as [-> | _]; [discriminate H |].
  reflexivity.
Qed.

Lemma all_digits_firstn (n : nat) (s : list ascii) :
  all_digits s -> all_digits (firstn n s).
Proof.
  intros H. revert n. induction H as [| c s Hc Hs IH]; intros [| n]; cbn.
  - constructor.
  - constructor.
  - constructor.
  - constructor; [exact Hc | apply IH].
Qed.

Lemma all_digits_skipn (n : nat) (s : list ascii) :
  all_digits s -> all_digits (skipn n s).
Proof.
  intros H. revert n. induction H as [| c s Hc Hs IH]; intros [| n]; cbn.
  - constructor.
  - constructor.
  - constructor; assumption.
  - apply IH.
Qed.

(** *** [str] *)

Lemma digits_acc_all_digits (fuel : nat) (n : Z) (acc : list ascii) :
  all_digits acc -> all_digits (digits_acc fuel n acc).
Proof.
  revert n acc. induction fuel as [| f IH]; intros n acc Hacc;
    cbn [digits_acc].
  - exact Hacc.
  - assert (Hd : all_digits (digit_char (n mod 10) :: acc)).
    { constructor; [| exact Hacc].
      apply is_digit_digit_char, Z.mod_pos_bound. lia. }
    destruct (n / 10 =? 0); [exact Hd | apply IH, Hd].
Qed.

Lemma digits_acc_length (fuel k : nat) (n : Z) (acc : list ascii) :
  0 <= n < 10 ^ Z.of_nat (S k) ->
  (length (digits_acc fuel n acc) <= length acc + S k)%nat.
Proof.
  revert k n acc. induction fuel as [| f IH]; intros k n acc Hn;
    cbn [digits_acc].
  - lia.
  - destruct (Z.eqb_spec (n / 10) 0) as [E | NE]; [cbn [length]; lia |].
    destruct k as [| k].
    + exfalso. apply NE. apply Z.div_small.
      change (10 ^ Z.of_nat 1) with 10 in Hn. exact Hn.
    + assert (Hq : 0 <= n / 10 < 10 ^ Z.of_nat (S k)).
      { split; [apply Z.div_pos; lia |].
        apply Z.div_lt_upper_bound; [lia |].
        rewrite <- Z.pow_succ_r by lia. rewrite <- Nat2Z.inj_succ. apply Hn. }
      specialize (IH k (n / 10) (digit_char (n mod 10) :: acc) Hq).
      cbn [length] in IH. lia.
Qed.

Lemma str_digits_length (n : Z) (k : nat) :
  0 <= n < 10 ^ Z.of_nat (S k) ->
  all_digits (str n) /\ (length (str n) <= S k)%nat.
Proof.
  intros Hn. unfold str.
  destruct (Z.ltb_spec n 0) as [Hneg | _]; [lia |].
  unfold str_nonneg. split.
  - apply digits_acc_all_digits. constructor.
  - apply (digits_acc_length _ k n []). exact Hn.
Qed.

(** *** [zfill] and slices *)

Lemma zfill_digits (s : list ascii) (width : Z) :
  all_digits s -> len s <= width ->
  all_digits (zfill s width) /\ length (zfill s width) = Z.to_nat width.
Proof.
  unfold zfill, len. intros Hs Hw.
  destruct (Z.leb_spec width (Z.of_nat (length s))) as [Hle | Hgt].
  - split; [exact Hs | lia].
  - assert (Hpad : forall k, all_digits (repeat "0"%char k)).
    { intros k. apply Forall_forall. intros c Hc.
      apply repeat_spec in Hc. now subst c. }
    destruct s as [| c rest].
    + split; [apply Hpad |]. rewrite repeat_length. cbn. lia.
    + rewrite (is_digit_not_sign c) by (inversion Hs; assumption).
      split.
      * apply Forall_app. split; [apply Hpad | exact Hs].
      * rewrite length_app, repeat_length. lia.
Qed.

Lemma middle_digits (t : list ascii) (digits : Z) :
  0 < digits -> Z.even digits = true ->
  all_digits t -> length t = Z.to_nat (2 * digits) ->
  let middle_str := slice_to (slice_from t (digits / 2)) ((- digits) / 2) in
  all_digits middle_str /\ length middle_str = Z.to_nat digits.
Proof.
  intros Hpos Heven Ht Hlen middle_str. subst middle_str.
  apply Z.even_spec in Heven as [h ->].
  assert (Hh : 0 < h) by lia.
  replace (2 * h / 2) with h by (Z.div_mod_to_equations; lia).
  replace (- (2 * h) / 2) with (- h) by (Z.div_mod_to_equations; lia).
  unfold slice_to, slice_from, len, slice_index.
  split.
  - apply all_digits_firstn, all_digits_skipn, Ht.
  - rewrite length_firstn, !length_skipn, Hlen.
    destruct (Z.ltb_spec h 0) as [? | _]; [lia |].
    destruct (Z.ltb_spec (- h) 0) as [_ | ?]; [| lia].
    lia.
Qed.

(** *** [int] *)

Lemma parse_digits_bounds (s : list ascii) (acc : Z) :
  all_digits s -> 0 <= acc ->
  exists r, parse_digits s acc = Some r /\
            acc * 10 ^ len s <= r < (acc + 1) * 10 ^ len s.
Proof.
  intros Hs. revert acc. induction Hs as [| c s Hc Hs IH]; intros acc Hacc.
  - exists acc. cbn. split; [reflexivity | lia].
  - cbn [parse_digits]. rewrite Hc.
    pose proof (digit_val_range c Hc) as Hd.
    destruct (IH (10 * acc + digit_val c)) as (r & Er & Hr); [lia |].
    exists r. split; [exact Er |].
    unfold len in *. cbn [length]. rewrite Nat2Z.inj_succ, Z.pow_succ_r by lia.
    assert (Hp : 0 < 10 ^ Z.of_nat (length s)) by (apply Z.pow_pos_nonneg; lia).
    nia.
Qed.

Lemma int_digits (s : list ascii) :
  all_digits s -> s <> [] ->
  exists r, int s = Some r /\ 0 <= r < 10 ^ len s.
Proof.
  intros Hs Hne. destruct s as [| c rest]; [contradiction |].
  unfold int. rewrite (is_digit_not_sign c) by (inversion Hs; assumption).
  destruct (parse_digits_bounds (c :: rest) 0 Hs) as (r & Er & Hr); [lia |].
  exists r. split; [exact Er | lia].
Qed.

(** [int] reads back what [str] writes: the fuel of [str_nonneg] suffices. *)
Lemma digits_acc_app (fuel : nat) (n : Z) (acc : list ascii) :
  digits_acc fuel n acc = digits_acc fuel n [] ++ acc.
Proof.
  revert n acc. induction fuel as [| f IH]; intros n acc; cbn [digits_acc].
  - reflexivity.
  - destruct (n / 10 =? 0); [reflexivity |].
    rewrite (IH _ (_ :: acc)), (IH _ [_]), <- app_assoc. reflexivity.
Qed.

Lemma parse_digits_app (s1 s2 : list ascii) (acc : Z) :
  parse_digits (s1 ++ s2) acc
  = match parse_digits s1 acc with
    | Some v => parse_digits s2 v
    | None => None
    end.
Proof.
  revert acc. induction s1 as [| c s1 IH]; intros acc; cbn [parse_digits app].
  - reflexivity.
  - destruct (is_digit c); [apply IH | reflexivity].
Qed.

Lemma parse_digits_acc (fuel : nat) (n : Z) :
  0 <= n < 2 ^ Z.of_nat fuel ->
  parse_digits (digits_acc fuel n []) 0 = Some n.
Proof.
  revert n. induction fuel as [| f IH]; intros n Hn; cbn [digits_acc].
  - change (2 ^ Z.of_nat 0) with 1 in Hn. cbn. f_equal. lia.
  - assert (Hm : 0 <= n mod 10 < 10) by (apply Z.mod_pos_bound; lia).
    assert (Hone : parse_digits [digit_char (n mod 10)] (n / 10) = Some n).
    { cbn [parse_digits]. rewrite is_digit_digit_char by exact Hm.
      rewrite digit_val_digit_char by exact Hm. f_equal.
      Z.div_mod_to_equations. lia. }
    destruct (Z.eqb_spec (n / 10) 0) as [E | NE].
    + rewrite E in Hone. exact Hone.
    + rewrite digits_acc_app, parse_digits_app, IH; [exact Hone |].
      rewrite Nat2Z.inj_succ, Z.pow_succ_r in Hn by lia.
      Z.div_mod_to_equations. lia.
Qed.

Lemma int_str (n : Z) : 0 <= n -> int (str n) = Some n.
Proof.
  intros Hn. unfold str.
  destruct (Z.ltb_spec n 0) as [? | _]; [lia |].
  assert (Hp : parse_digits (str_nonneg n) 0 = Some n).
  { apply parse_digits_acc. rewrite Nat2Z.inj_succ, Z2Nat.id
      by apply Z.log2_nonneg.
    destruct (Z.eq_dec n 0) as [-> | NZ]; [cbn; lia |].
    split; [exact Hn | apply Z.log2_spec; lia]. }
  assert (Hd : all_digits (str_nonneg n))
    by (apply digits_acc_all_digits; constructor).
  unfold int. destruct (str_nonneg n) as [| c rest] eqn:E.
  - unfold str_nonneg in E. cbn [digits_acc] in E.
    destruct (n / 10 =? 0); [discriminate E |].
    rewrite digits_acc_app in E. now destruct (digits_acc _ _ []).
  - rewrite (is_digit_not_sign c) by (inversion Hd; assumption). exact Hp.
Qed.

(** *** The generator *)

(** The first cell of the notebook: seed 1234 with four digits. *)
Example middlesquare_1234 :
  middlesquare 1234 4 = Some 5227 /\
  middlesquare_iter 3 1234 4 = Some 3362.
Proof. split; reflexivity. Qed.

(** Outside the range of the seed, or with [digits = 0], the result leaves
    the range or [int] fails on the empty string. *)
Example middlesquare_outside_domain :
  middlesquare 12345 4 = Some 23990 /\ middlesquare 5 0 = None.
Proof. split; reflexivity. Qed.

Lemma middlesquare_step (s digits : Z) :
  0 < digits -> Z.even digits = true -> 0 <= s < 10 ^ digits ->
  exists r, middlesquare s digits = Some r /\ 0 <= r < 10 ^ digits.
Proof.
  intros Hpos Heven Hs. unfold middlesquare.
  assert (Hsq : 0 <= s ^ 2 < 10 ^ Z.of_nat (S (Z.to_nat (2 * digits - 1)))).
  { rewrite Nat2Z.inj_succ, Z2Nat.id by lia.
    replace (Z.succ (2 * digits - 1)) with (digits + digits) by lia.
    rewrite Z.pow_add_r, Z.pow_2_r by lia. nia. }
  destruct (str_digits_length _ _ Hsq) as [Hd Hl].
  destruct (zfill_digits (str (s ^ 2)) (2 * digits) Hd) as [Hzd Hzl];
    [unfold len; lia |].
  destruct (middle_digits _ digits Hpos Heven Hzd Hzl) as [Hmd Hml].
  destruct (int_digits _ Hmd) as (r & Er & Hr).
  { intros E. rewrite E in Hml. cbn [length] in Hml. lia. }
  exists r. split; [exact Er |].
  unfold len in Hr. rewrite Hml, Z2Nat.id in Hr by lia. exact Hr.
Qed.

(** C9: for an even positive [digits] and [0 <= s < 10 ^ digits],
    [middlesquare s digits] returns an integer in the same range, and so
    does every number of repeated applications from such a seed. *)
Theorem middlesquare_range (s digits : Z) :
  0 < digits -> Z.even digits = true -> 0 <= s < 10 ^ digits ->
  (exists r : Z, middlesquare s digits = Some r /\ 0 <= r < 10 ^ digits) /\
  (forall n : nat, exists r : Z,
      middlesquare_iter n s digits = Some r /\ 0 <= r < 10 ^ digits).
Proof.
  intros Hpos Heven Hs. split; [now apply middlesquare_step |].
  intros n. revert s Hs. induction n as [| n IH]; intros s Hs.
  - exists s. split; [reflexivity | exact Hs].
  - cbn [middlesquare_iter].
    destruct (middlesquare_step s digits Hpos Heven Hs) as (r & -> & Hr).
    apply IH, Hr.
Qed.

Lemma middlesquare_range_witness :
  (exists r : Z, middlesquare 1234 4 = Some r /\ 0 <= r < 10 ^ 4) /\
  (forall n : nat, exists r : Z,
      middlesquare_iter n 1234 4 = Some r /\ 0 <= r < 10 ^ 4).
Proof.
  apply (middlesquare_range 1234 4); [lia | reflexivity | lia].
Defined.

End MiddleSquareFacts.

(** ** Order facts on binary64 floats

    The comparisons of primitive floats are specified by [SFcompare] on the
    decoded values; the facts below are read off that specification. *)

Module FloatOrder.

Ltac cmp_cases :=
  repeat match goal with
  | H : context [PosDef.Pos.compare_cont Eq ?a ?b] |- _ =>
      change (PosDef.Pos.compare_cont Eq a b) with (Pos.compare a b) in H
  | |- context [PosDef.Pos.compare_cont Eq ?a ?b] =>
      change (PosDef.Pos.compare_cont Eq a b) with (Pos.compare a b)
  end;
  repeat match goal with
  | H : context [Z.compare ?a ?b] |- _ => destruct (Z.compare_spec a b)
  | |- context [Z.compare ?a ?b] => destruct (Z.compare_spec a b)
  | H : context [Pos.compare ?a ?b] |- _ => destruct (Pos.compare_spec a b)
  | |- context [Pos.compare ?a ?b] => destruct (Pos.compare_spec a b)
  end.

Ltac sf_cases :=
  cbn; try discriminate; try reflexivity;
  cmp_cases; cbn; intros; subst; try discriminate; try reflexivity; lia.

Lemma SFlt_le_trans (x y z : spec_float) :
  SFltb x y = true -> SFleb y z = true -> SFltb x z = true.
Proof.
  unfold SFltb, SFleb.
  destruct x as [sx | sx | | sx mx ex], y as [sy | sy | | sy my ey],
    z as [sz | sz | | sz mz ez];
    try destruct sx; try destruct sy; try destruct sz; sf_cases.
Qed.

Lemma SFlt_not_ge (x y : spec_float) :
  SFltb x y = true -> SFleb y x = false.
Proof.
  unfold SFltb, SFleb.
  destruct x as [sx | sx | | sx mx ex], y as [sy | sy | | sy my ey];
    try destruct sx; try destruct sy; sf_cases.
Qed.

Local Open Scope float_scope.

Lemma ltb_leb (x y : float) : (x <? y) = true -> (x <=? y) = true.
Proof.
  rewrite FloatAxioms.ltb_spec, FloatAxioms.leb_spec. unfold SFltb, SFleb.
  destruct (SFcompare _ _) as [[] |]; congruence.
Qed.

Lemma eqb_leb (x y : float) : (x =? y) = true -> (x <=? y) = true.
Proof.
  rewrite FloatAxioms.eqb_spec, FloatAxioms.leb_spec. unfold SFeqb, SFleb.
  destruct (SFcompare _ _) as [[] |]; congruence.
Qed.

Lemma ltb_leb_trans (x y z : float) :
  (x <? y) = true -> (y <=? z) = true -> (x <? z) = true.
Proof.
  rewrite !FloatAxioms.ltb_spec, FloatAxioms.leb_spec. apply SFlt_le_trans.
Qed.

Lemma SFle_eq_trans (x y z : spec_float) :
  SFleb x y = true -> SFeqb z y = true -> SFleb x z = true.
Proof.
  unfold SFleb, SFeqb.
  destruct x as [sx | sx | | sx mx ex], y as [sy | sy | | sy my ey],
    z as [sz | sz | | sz mz ez];
    try destruct sx; try destruct sy; try destruct sz; sf_cases.
Qed.

Lemma leb_eqb_trans (x y z : float) :
  (x <=? y) = true -> (z =? y) = true -> (x <=? z) = true.
Proof.
  rewrite !FloatAxioms.leb_spec, FloatAxioms.eqb_spec. apply SFle_eq_trans.
Qed.

Lemma ltb_not_leb (x y : float) : (x <? y) = true -> (y <=? x) = false.
Proof.
  rewrite FloatAxioms.ltb_spec, FloatAxioms.leb_spec. apply SFlt_not_ge.
Qed.

End FloatOrder.

(** ** The linear congruential generator *)

Module LcgFacts.
Import Lcg.
Local Open Scope Z_scope.

Lemma lcg_nonzero (x a b m : Z) :
  m <> 0 -> lcg x a b m = Some ((a * x + b) mod m).
Proof.
  intros Hm. unfold lcg.
  destruct (Z.eqb_spec m 0) as [E | _]; [contradiction | reflexivity].
Qed.

Lemma lcg_range (x a b m s : Z) :
  0 < m -> lcg x a b m = Some s -> 0 <= s < m.
Proof.
  intros Hm. rewrite lcg_nonzero by lia.
  intros [= <-]. apply Z.mod_pos_bound. exact Hm.
Qed.

Lemma lcg_default (x : Z) :
  lcg x a_default b_default m_default
  = Some ((123456 * x + 978564) mod 6012119).
Proof. reflexivity. Qed.

Lemma lcg_iter_last (n : nat) (x : Z) :
  lcg_iter (S n) x = (123456 * lcg_iter n x + 978564) mod 6012119.
Proof.
  revert x. induction n as [| n IH]; intros x.
  - reflexivity.
  - change (lcg_iter (S (S n)) x)
      with (lcg_iter (S n) ((123456 * x + 978564) mod 6012119)).
    rewrite IH. reflexivity.
Qed.

Lemma unif_lcg_calls_state (n : nat) (x : Z) :
  exists vs, unif_lcg_calls n x = Some (lcg_iter n x, vs) /\ length vs = n.
Proof.
  revert x. induction n as [| n IH]; intros x.
  - exists []. split; reflexivity.
  - cbn [unif_lcg_calls]. unfold unif_lcg. rewrite lcg_default.
    destruct (IH ((123456 * x + 978564) mod 6012119)) as (vs & E & L).
    rewrite E. eexists. split; [reflexivity |]. cbn. now rewrite L.
Qed.

Lemma state_after_iter (n : nat) (x : Z) :
  state_after n x = Some (lcg_iter n x).
Proof.
  unfold state_after.
  destruct (unif_lcg_calls_state n x) as (vs & E & _). now rewrite E.
Qed.

(** C1: with the notebook's parameters the generator state obeys
    [x_{i+1} = (a * x_i + b) mod m]: [lcg] computes exactly that, every call
    of [unif_lcg] succeeds and moves the state by it, and from the seed
    123456 the first generated state is
    [(123456 * 123456 + 978564) mod 6012119], which is 1640835. *)
Theorem lcg_state_update :
  (forall x : Z,
      lcg x 123456 978564 6012119 = Some ((123456 * x + 978564) mod 6012119)) /\
  (forall i : nat, exists x_i : Z,
      state_after i lcg_seed = Some x_i /\
      state_after (S i) lcg_seed
      = Some ((123456 * x_i + 978564) mod 6012119)) /\
  state_after 0 lcg_seed = Some 123456 /\
  state_after 1 lcg_seed = Some ((123456 * 123456 + 978564) mod 6012119) /\
  (123456 * 123456 + 978564) mod 6012119 = 1640835.
Proof.
  split; [exact lcg_default |].
  split.
  - intros i. exists (lcg_iter i lcg_seed).
    rewrite !state_after_iter, lcg_iter_last. split; reflexivity.
  - rewrite !state_after_iter. repeat split; reflexivity.
Qed.

(** *** The uniform sampler stays in the unit interval *)

Lemma scan_invariant (p : positive) :
  let st := Pos.iter scan_step (0%uint63, true) p in
  snd st = true ->
  forall j : int, Uint63.to_Z j < Uint63.to_Z (fst st) -> in_unit j = true.
Proof.
  apply Pos.iter_invariant.
  - intros [i ok] IH. cbn [scan_step fst snd] in *. intros Hok j Hj.
    apply andb_prop in Hok as [Hok Hi].
    rewrite Uint63.succ_spec in Hj.
    pose proof (Uint63.to_Z_bounded i) as Bi.
    pose proof (Uint63.to_Z_bounded j) as Bj.
    destruct (Z.eq_dec (Uint63.to_Z i + 1) wB) as [E | NE].
    + rewrite E, Z.mod_same in Hj by lia. lia.
    + rewrite Z.mod_small in Hj by lia.
      destruct (Z.eq_dec (Uint63.to_Z j) (Uint63.to_Z i)) as [Eji | Nji].
      * apply Uint63.to_Z_inj in Eji. now subst j.
      * apply IH; [exact Hok | lia].
  - cbn [fst snd]. intros _ j Hj. pose proof (Uint63.to_Z_bounded j) as Bj.
    rewrite Uint63.to_Z_0 in Hj. lia.
Qed.

(** The scan of all 6012119 states, by evaluation. *)
Lemma scan_all :
  Pos.iter scan_step (0%uint63, true) 6012119 = (6012119%uint63, true).
Proof. vm_compute. reflexivity. Qed.

Lemma in_unit_below_m (j : int) :
  Uint63.to_Z j < 6012119 -> in_unit j = true.
Proof.
  intros Hj. pose proof (scan_invariant 6012119) as H.
  rewrite scan_all in H. apply H; [reflexivity | exact Hj].
Qed.

(** On machine-size naturals the conversion is the primitive one. *)
Lemma float_of_int_uint63 (z : Z) :
  0 <= z < wB -> float_of_int z = of_uint63 (Uint63.of_Z z).
Proof.
  intros Hz. unfold float_of_int.
  rewrite <- (SF2Prim_Prim2SF (of_uint63 (Uint63.of_Z z))).
  rewrite of_uint63_spec, Uint63.of_Z_spec, Z.mod_small by exact Hz.
  reflexivity.
Qed.

Lemma float_of_int_m : float_of_int m = of_uint63 6012119.
Proof. vm_compute. reflexivity. Qed.

Lemma state_quotient_is_draw (s : Z) :
  0 <= s < m ->
  Sampling.is_draw (float_of_int s / (1 * float_of_int m))%float = true.
Proof.
  intros Hs. unfold m in Hs.
  assert (Hw : 0 <= s < wB) by (change wB with 9223372036854775808; lia).
  rewrite float_of_int_m, (float_of_int_uint63 s Hw).
  apply (in_unit_below_m (Uint63.of_Z s)).
  rewrite Uint63.of_Z_spec, Z.mod_small by exact Hw. lia.
Qed.

Lemma unif_lcg_calls_draws (n : nat) (x : Z) :
  exists s vs,
    unif_lcg_calls n x = Some (s, vs) /\
    Forall (fun v => Sampling.is_draw v = true) vs.
Proof.
  revert x. induction n as [| n IH]; intros x.
  - exists x, []. split; [reflexivity | constructor].
  - cbn [unif_lcg_calls]. unfold unif_lcg. rewrite lcg_default.
    set (s1 := (123456 * x + 978564) mod 6012119).
    destruct (IH s1) as (s & vs & E & F). rewrite E.
    eexists _, _. split; [reflexivity |].
    constructor; [| exact F].
    apply state_quotient_is_draw. apply Z.mod_pos_bound. reflexivity.
Qed.

(** C7: from any state, a call of [unif_lcg] succeeds, leaves a state [s] in
    [0, m), and returns the float quotient [s / (1. * m)], which satisfies
    [0 <= v] and [v < 1]; so does every value returned by any number of
    successive calls. *)
Theorem unif_lcg_unit_interval (lcg_state : Z) :
  (exists (s : Z) (v : float),
      unif_lcg lcg_state = Some (s, v) /\
      0 <= s < m /\
      v = (float_of_int s / (1 * float_of_int m))%float /\
      (0 <=? v)%float = true /\ (v <? 1)%float = true) /\
  (forall n : nat, exists (s : Z) (vs : list float),
      unif_lcg_calls n lcg_state = Some (s, vs) /\
      Forall (fun v => (0 <=? v)%float = true /\ (v <? 1)%float = true) vs).
Proof.
  split.
  - unfold unif_lcg. rewrite lcg_default.
    set (s := (123456 * lcg_state + 978564) mod 6012119).
    assert (Hs : 0 <= s < m) by (apply Z.mod_pos_bound; reflexivity).
    exists s, (float_of_int s / (1 * float_of_int m))%float.
    pose proof (state_quotient_is_draw s Hs) as D.
    unfold Sampling.is_draw in D. apply andb_prop in D as [D0 D1].
    repeat split; try assumption; apply Hs.
  - intros n. destruct (unif_lcg_calls_draws n lcg_state) as (s & vs & E & F).
    exists s, vs. split; [exact E |].
    eapply Forall_impl; [| exact F].
    intros v D. unfold Sampling.is_draw in D.
    apply andb_prop in D as [D0 D1]. split; assumption.
Qed.

(** *** Determinism *)

(** C8: two runs of the generator loop from the same seed with the same
    parameters agree at every position they both reach; runs of the same
    length print the same list. *)
Theorem lcg_seq_deterministic (a b m seed : Z) (n1 n2 : nat) (l1 l2 : list Z) :
  lcg_seq n1 seed a b m = Some l1 ->
  lcg_seq n2 seed a b m = Some l2 ->
  (n1 = n2 -> l1 = l2) /\
  (forall (i : nat) (x y : Z),
      nth_error l1 i = Some x -> nth_error l2 i = Some y -> x = y).
Proof.
  revert seed n2 l1 l2.
  induction n1 as [| k1 IH]; intros seed n2 l1 l2 H1 H2.
  - cbn in H1. injection H1 as <-. split.
    + intros <-. cbn in H2. now injection H2 as <-.
    + intros [| i] x y Hx; discriminate Hx.
  - cbn in H1.
    destruct (lcg seed a b m) as [s' |] eqn:Es; [| discriminate].
    destruct (lcg_seq k1 s' a b m) as [t1 |] eqn:E1; [| discriminate].
    injection H1 as <-.
    destruct n2 as [| k2]; cbn in H2.
    + injection H2 as <-. split; [discriminate |].
      intros [| i] x y _ Hy; discriminate Hy.
    + rewrite Es in H2.
      destruct (lcg_seq k2 s' a b m) as [t2 |] eqn:E2; [| discriminate].
      injection H2 as <-.
      destruct (IH s' k2 t1 t2 E1 E2) as [Heq Hnth].
      split.
      * intros [= ->]. now rewrite Heq.
      * intros [| i] x y Hx Hy; cbn in Hx, Hy.
        -- congruence.
        -- eauto.
Qed.

Lemma lcg_seq_deterministic_witness :
  lcg_seq 3 1234 123456 978564 6012119 = Some [3020293; 2650792; 5494308] /\
  lcg_seq 5 1234 123456 978564 6012119
  = Some [3020293; 2650792; 5494308; 965075; 3115541] /\
  (forall (i : nat) (x y : Z),
      nth_error [3020293; 2650792; 5494308] i = Some x ->
      nth_error [3020293; 2650792; 5494308; 965075; 3115541] i = Some y ->
      x = y).
Proof.
  split; [reflexivity |]. split; [reflexivity |].
  apply (lcg_seq_deterministic 123456 978564 6012119 1234 3 5); reflexivity.
Defined.

End LcgFacts.


Module SamplingFacts.
Import Sampling.
Local Open Scope float_scope.

(** *** Bernoulli *)

Lemma sample_bernoulli_binary (theta u : float) :
  sample_bernoulli theta u = 0%Z \/ sample_bernoulli theta u = 1%Z.
Proof.
  unfold sample_bernoulli. destruct (u <=? theta); [right | left]; reflexivity.
Qed.

(** C5: [sample_bernoulli theta u] is 1 when [u <= theta] and 0 otherwise, so
    it is always 0 or 1; this holds for every [theta], in particular for
    [0 <= theta <= 1]. *)
Theorem sample_bernoulli_spec (theta u : float) :
  ((u <=? theta) = true -> sample_bernoulli theta u = 1%Z) /\
  ((u <=? theta) = false -> sample_bernoulli theta u = 0%Z) /\
  (sample_bernoulli theta u = 0%Z \/ sample_bernoulli theta u = 1%Z).
Proof.
  split; [| split; [| apply sample_bernoulli_binary]];
    unfold sample_bernoulli; intros ->; reflexivity.
Qed.

Lemma sample_bernoulli_spec_witness :
  sample_bernoulli 0.5 0.25 = 1%Z /\ sample_bernoulli 0.5 0.75 = 0%Z.
Proof.
  split.
  - apply (sample_bernoulli_spec 0.5 0.25). reflexivity.
  - apply (sample_bernoulli_spec 0.5 0.75). reflexivity.
Defined.

Lemma draw_bounds (u : float) :
  is_draw u = true -> (0 <=? u) = true /\ (u <? 1) = true.
Proof. unfold is_draw. intros H. apply andb_prop in H. exact H. Qed.

Lemma bernoulli_below (theta u : float) :
  (theta <? u) = true -> sample_bernoulli theta u = 0%Z.
Proof.
  intros H. unfold sample_bernoulli.
  now rewrite (FloatOrder.ltb_not_leb theta u H).
Qed.

Lemma bernoulli_above (theta u : float) :
  (u <=? theta) = true -> sample_bernoulli theta u = 1%Z.
Proof. intros H. unfold sample_bernoulli. now rewrite H. Qed.

(** C10: for every float [theta] (NaN and the infinities included) the call
    returns 0 or 1; for a draw [u] in [0, 1) it returns 0 whenever
    [theta < 0] and 1 whenever [theta >= 1]. *)
Theorem sample_bernoulli_total (theta u : float) :
  (sample_bernoulli theta u = 0%Z \/ sample_bernoulli theta u = 1%Z) /\
  (is_draw u = true -> (theta <? 0) = true -> sample_bernoulli theta u = 0%Z) /\
  (is_draw u = true -> (1 <=? theta) = true -> sample_bernoulli theta u = 1%Z).
Proof.
  split; [apply sample_bernoulli_binary |].
  split; intros D H; apply draw_bounds in D as [D0 D1].
  - apply bernoulli_below. exact (FloatOrder.ltb_leb_trans theta 0 u H D0).
  - apply bernoulli_above, FloatOrder.ltb_leb.
    exact (FloatOrder.ltb_leb_trans u 1 theta D1 H).
Qed.

Lemma sample_bernoulli_total_witness :
  sample_bernoulli (-2.5) 0.25 = 0%Z /\
  sample_bernoulli neg_infinity 0 = 0%Z /\
  sample_bernoulli 1 0.75 = 1%Z /\
  sample_bernoulli infinity 0.75 = 1%Z /\
  (sample_bernoulli nan 0.5 = 0%Z \/ sample_bernoulli nan 0.5 = 1%Z).
Proof.
  split; [apply (sample_bernoulli_total (-2.5) 0.25); reflexivity |].
  split; [apply (sample_bernoulli_total neg_infinity 0); reflexivity |].
  split; [apply (sample_bernoulli_total 1 0.75); reflexivity |].
  split; [apply (sample_bernoulli_total infinity 0.75); reflexivity |].
  apply (sample_bernoulli_total nan 0.5).
Defined.

(** *** Discrete distributions *)

(** What the loop returns, from any running total [c] and next index [j0]. *)
Lemma sample_discrete_loop_spec (p : list float) (u c : float) (j0 : nat) :
  match sample_discrete_loop p u c j0 with
  | Some j =>
      exists k, (j = j0 + k)%nat /\ (k < length p)%nat /\
        (u <=? fold_left PrimFloat.add (firstn (S k) p) c) = true /\
        forall i, (i < k)%nat ->
          (u <=? fold_left PrimFloat.add (firstn (S i) p) c) = false
  | None =>
      forall i, (i < length p)%nat ->
        (u <=? fold_left PrimFloat.add (firstn (S i) p) c) = false
  end.
Proof.
  revert c j0. induction p as [| pj rest IH]; intros c j0.
  - cbn. intros i Hi. lia.
  - cbn [sample_discrete_loop].
    destruct (u <=? c + pj) eqn:Hc.
    + exists 0%nat. cbn. repeat split; try lia. exact Hc.
    + specialize (IH (c + pj) (S j0)).
      destruct (sample_discrete_loop rest u (c + pj) (S j0)) as [j |].
      * destruct IH as (k & -> & Hk & Hle & Hmin).
        exists (S k). cbn [length]. repeat split; try lia.
        -- exact Hle.
        -- intros [| i] Hi; [exact Hc | apply Hmin; lia].
      * intros [| i] Hi; [exact Hc |]. apply IH. cbn in Hi. lia.
Qed.

(** [sample_discrete] returns the least index whose cumulative sum reaches
    [u], and [None] exactly when no cumulative sum does. *)
Lemma sample_discrete_least (p : list float) (u : float) :
  match sample_discrete p u with
  | Some j =>
      (j < length p)%nat /\ (u <=? cumsum p j) = true /\
      forall i, (i < j)%nat -> (u <=? cumsum p i) = false
  | None => forall i, (i < length p)%nat -> (u <=? cumsum p i) = false
  end.
Proof.
  unfold sample_discrete, cumsum, fsum.
  pose proof (sample_discrete_loop_spec p u 0 0%nat) as H.
  destruct (sample_discrete_loop p u 0 0%nat) as [j |]; [| exact H].
  destruct H as (k & -> & Hk & Hle & Hmin). cbn [Nat.add].
  repeat split; assumption.
Qed.

(** When the running total of the whole list reaches the draw, an index is
    returned, and it is the smallest one whose cumulative sum reaches the
    draw. *)
Lemma sample_discrete_reached (p : list float) (u : float) :
  p <> [] ->
  (u <=? fsum p) = true ->
  exists j : nat,
    sample_discrete p u = Some j /\
    (j < length p)%nat /\
    (u <=? cumsum p j) = true /\
    (forall i : nat, (i < j)%nat -> (u <=? cumsum p i) = false).
Proof.
  intros Hne Hsum.
  pose proof (sample_discrete_least p u) as H.
  destruct (sample_discrete p u) as [j |].
  - exists j. destruct H as (Hj & Hle & Hmin). repeat split; assumption.
  - exfalso.
    assert (Hlen : (length p - 1 < length p)%nat)
      by (destruct p; [contradiction | cbn; lia]).
    specialize (H (length p - 1)%nat Hlen).
    unfold cumsum in H.
    replace (S (length p - 1)%nat) with (length p) in H by lia.
    rewrite firstn_all in H. congruence.
Qed.

(** C2, where the code departs from it.  The draw [1 - 2^-53] is the largest
    value of [np.random.rand()].  The list of seven entries [1/7.] has no
    negative entry and sums to 1 within the tolerance; the second list has no
    negative entry and its entries sum to 1 exactly.  In both, the running
    total of the loop ends at [1 - 2^-52], below the draw, so the loop falls
    through and the call returns [None] instead of the index of the last
    entry. *)
Theorem sample_discrete_falls_through :
  let u := 1 - 0x1p-53 in
  let p := repeat (1 / 7) 7 in
  let q := [0.5; 0x1p-55; 0x1p-55; 0x1p-55; 0x1p-55;
            0x1p-55; 0x1p-55; 0x1p-55; 0x1p-55; 0.5 - 0x1p-52] in
  is_draw u = true /\
  (valid_distribution p = true /\
   fsum p = 1 - 0x1p-52 /\
   sample_discrete p u = None) /\
  (valid_distribution q = true /\
   (Exact.exact_sum q == 1)%Q /\
   fsum q = 1 - 0x1p-52 /\
   sample_discrete q u = None).
Proof.
  cbv zeta. repeat split; vm_compute; reflexivity.
Qed.




(** *** Boundary parameters *)

(** C4 fails as stated: the draw [u = 0] lies in [0, 1) and
    [sample_bernoulli 0] answers 1 on it, because the test is [u <= theta]. *)
Lemma sample_bernoulli_zero_draw_zero :
  is_draw 0 = true /\ sample_bernoulli 0 0 = 1%Z.
Proof. split; reflexivity. Qed.

(** C4, as the code has it: for every draw [u] in [0, 1),
    [sample_discrete [1.0]] returns index 0 and [sample_bernoulli 1] returns
    1; [sample_bernoulli 0] returns 0 when [u > 0] and 1 when [u = 0]. *)
Theorem boundary_parameters (u : float) :
  is_draw u = true ->
  sample_discrete [1] u = Some 0%nat /\
  sample_bernoulli 1 u = 1%Z /\
  ((0 <? u) = true -> sample_bernoulli 0 u = 0%Z) /\
  ((u =? 0) = true -> sample_bernoulli 0 u = 1%Z).
Proof.
  intros D. apply draw_bounds in D as [D0 D1].
  pose proof (FloatOrder.ltb_leb u 1 D1) as Hle.
  repeat split.
  - unfold sample_discrete. cbn [sample_discrete_loop].
    change (0 + 1) with 1. now rewrite Hle.
  - now apply bernoulli_above.
  - apply bernoulli_below.
  - intros E. apply bernoulli_above, FloatOrder.eqb_leb, E.
Qed.

Lemma boundary_parameters_witness :
  sample_discrete [1] 0.5 = Some 0%nat /\
  sample_bernoulli 1 0.5 = 1%Z /\
  sample_bernoulli 0 0.5 = 0%Z /\
  sample_bernoulli 0 0 = 1%Z.
Proof.
  destruct (boundary_parameters 0.5 eq_refl) as (H1 & H2 & H3 & _).
  destruct (boundary_parameters 0 eq_refl) as (_ & _ & _ & H4).
  split; [exact H1 |]. split; [exact H2 |].
  split; [apply H3; reflexivity | apply H4; reflexivity].
Defined.

End SamplingFacts.

(** ** Signs of rounded quotients *)

Module FloatSign.
Local Open Scope Z_scope.









Local Open Scope float_scope.


End FloatSign.

(** ** The exponential sampler *)

Module ExponentialFacts.
Import Sampling Exponential Exact.





Local Open Scope float_scope.



End ExponentialFacts.

(** ** Decimal strings and the arithmetic of the middle square *)

Module DecimalFacts.
Import MiddleSquare Decimal MiddleSquareFacts.
Local Open Scope Z_scope.

Lemma parse_digits_dec_from (s : list ascii) (acc : Z) :
  all_digits s -> parse_digits s acc = Some (dec_from s acc).
Proof.
  intros Hs. revert acc. induction Hs as [| c s Hc Hs IH]; intros acc.
  - reflexivity.
  - cbn [parse_digits dec_from]. rewrite Hc. apply IH.
Qed.

Lemma dec_from_app (s1 s2 : list ascii) (acc : Z) :
  dec_from (s1 ++ s2) acc = dec_from s2 (dec_from s1 acc).
Proof.
  revert acc. induction s1 as [| c s1 IH]; intros acc; cbn [app dec_from].
  - reflexivity.
  - apply IH.
Qed.

Lemma dec_from_shift (s : list ascii) (acc : Z) :
  dec_from s acc = acc * 10 ^ len s + dec_val s.
Proof.
  unfold dec_val, len. revert acc.
  induction s as [| c s IH]; intros acc; cbn [dec_from length].
  - cbn. lia.
  - rewrite (IH (10 * acc + digit_val c)), (IH (10 * 0 + digit_val c)).
    rewrite Nat2Z.inj_succ, Z.pow_succ_r by lia. ring.
Qed.

Lemma dec_val_app (s1 s2 : list ascii) :
  dec_val (s1 ++ s2) = dec_val s1 * 10 ^ len s2 + dec_val s2.
Proof.
  unfold dec_val at 1. rewrite dec_from_app, dec_from_shift. reflexivity.
Qed.

Lemma dec_val_range (s : list ascii) :
  all_digits s -> 0 <= dec_val s < 10 ^ len s.
Proof.
  intros Hs.
  destruct (parse_digits_bounds s 0 Hs) as (r & Er & Hr); [lia |].
  rewrite parse_digits_dec_from in Er by exact Hs.
  injection Er as <-. unfold dec_val. lia.
Qed.

Lemma pow10_pos (k : Z) : 0 <= k -> 0 < 10 ^ k.
Proof. intros Hk. apply Z.pow_pos_nonneg; lia. Qed.

(** Cutting a digit string after [k] characters divides its value. *)
Lemma dec_val_cut (t : list ascii) (k : nat) :
  all_digits t -> (k <= length t)%nat ->
  dec_val (firstn k t) = dec_val t / 10 ^ (len t - Z.of_nat k) /\
  dec_val (skipn k t) = dec_val t mod 10 ^ (len t - Z.of_nat k).
Proof.
  intros Ht Hk.
  pose proof (dec_val_range (skipn k t) (all_digits_skipn k t Ht)) as Hr.
  pose proof (dec_val_app (firstn k t) (skipn k t)) as Happ.
  rewrite firstn_skipn in Happ.
  assert (Hlen : len (skipn k t) = len t - Z.of_nat k)
    by (unfold len; rewrite length_skipn; lia).
  rewrite Hlen in Hr, Happ.
  split.
  - apply (Z.div_unique _ _ _ (dec_val (skipn k t))); [left; exact Hr | lia].
  - apply (Z.mod_unique _ _ (dec_val (firstn k t))); [left; exact Hr | lia].
Qed.

Lemma dec_val_zeros (k : nat) (s : list ascii) :
  dec_val (repeat "0"%char k ++ s) = dec_val s.
Proof.
  unfold dec_val. rewrite dec_from_app.
  replace (dec_from (repeat "0"%char k) 0) with 0; [reflexivity |].
  induction k as [| k IH]; [reflexivity | exact IH].
Qed.

Lemma dec_val_zfill (s : list ascii) (width : Z) :
  all_digits s -> dec_val (zfill s width) = dec_val s.
Proof.
  intros Hs. unfold zfill. destruct (width <=? len s); [reflexivity |].
  destruct s as [| c rest].
  - rewrite <- (app_nil_r (repeat _ _)). apply dec_val_zeros.
  - rewrite (is_digit_not_sign c) by (inversion Hs; assumption).
    apply dec_val_zeros.
Qed.

Lemma dec_val_str (n : Z) : 0 <= n -> dec_val (str n) = n.
Proof.
  intros Hn. pose proof (int_str n Hn) as E.
  assert (Hd : all_digits (str n)).
  { unfold str. destruct (Z.ltb_spec n 0); [lia |].
    apply digits_acc_all_digits. constructor. }
  destruct (str n) as [| c rest]; [discriminate E |].
  unfold int in E. rewrite (is_digit_not_sign c) in E
    by (inversion Hd; assumption).
  rewrite parse_digits_dec_from in E by exact Hd. now injection E.
Qed.

(** Floor and ceiling halves, as Python 2 computes [digits/2] and
    [-digits/2]. *)
Lemma halves (d : Z) : d / 2 + (d + 1) / 2 = d /\ (- d) / 2 = - ((d + 1) / 2).
Proof. Z.div_mod_to_equations. lia. Qed.

(** The middle characters of a zero-filled square, as a number. *)
Lemma middlesquare_value (s digits : Z) :
  0 < digits -> s ^ 2 < 10 ^ (2 * digits) ->
  middlesquare s digits
  = Some ((s ^ 2 / 10 ^ ((digits + 1) / 2)) mod 10 ^ digits).
Proof.
  intros Hpos Hsq. unfold middlesquare.
  assert (H0 : 0 <= s ^ 2) by (rewrite Z.pow_2_r; nia).
  assert (Hsq' : 0 <= s ^ 2 < 10 ^ Z.of_nat (S (Z.to_nat (2 * digits - 1)))).
  { rewrite Nat2Z.inj_succ, Z2Nat.id by lia.
    replace (Z.succ (2 * digits - 1)) with (2 * digits) by lia. lia. }
  destruct (str_digits_length _ _ Hsq') as [Hd Hl].
  destruct (zfill_digits (str (s ^ 2)) (2 * digits) Hd) as [Ht Htl];
    [unfold len; lia |].
  pose proof (dec_val_zfill (str (s ^ 2)) (2 * digits) Hd) as Hv.
  rewrite dec_val_str in Hv by exact H0.
  set (t := zfill (str (s ^ 2)) (2 * digits)) in *.
  destruct (halves digits) as [Hsum Hneg].
  set (lo := digits / 2) in *. set (hi := (digits + 1) / 2) in *.
  assert (Hlo : 0 <= lo) by (subst lo; Z.div_mod_to_equations; lia).
  assert (Hhi : 0 < hi) by (subst hi; Z.div_mod_to_equations; lia).
  assert (Hlen : len t = 2 * digits) by (unfold len; lia).
  (* s2_str[digits/2:] *)
  assert (E1 : slice_from t lo = skipn (Z.to_nat lo) t).
  { unfold slice_from, slice_index. rewrite Hlen.
    destruct (Z.ltb_spec lo 0); [lia |]. f_equal. lia. }
  rewrite E1. set (u := skipn (Z.to_nat lo) t).
  assert (Hu : all_digits u) by (apply all_digits_skipn, Ht).
  assert (Hul : len u = 2 * digits - lo)
    by (unfold len, u; rewrite length_skipn; lia).
  destruct (dec_val_cut t (Z.to_nat lo) Ht) as [_ Huv]; [lia |].
  fold u in Huv. rewrite Hv, Hlen, Z2Nat.id in Huv by lia.
  (* ...[:-digits/2] *)
  assert (E2 : slice_to u (- digits / 2) = firstn (Z.to_nat digits) u).
  { unfold slice_to, slice_index. rewrite Hul, Hneg.
    destruct (Z.ltb_spec (- hi) 0); [| lia]. f_equal. lia. }
  rewrite E2. set (w := firstn (Z.to_nat digits) u).
  assert (Hw : all_digits w) by (apply all_digits_firstn, Hu).
  assert (Hwl : length w = Z.to_nat digits)
    by (unfold w; rewrite length_firstn; unfold len in Hul; lia).
  destruct (dec_val_cut u (Z.to_nat digits) Hu) as [Hwv _];
    [unfold len in Hul; lia |].
  fold w in Hwv. rewrite Hul, Z2Nat.id in Hwv by lia.
  (* int(middle_str) *)
  assert (Ei : int w = Some (dec_val w)).
  { destruct w as [| c rest]; [cbn [length] in Hwl; lia |].
    unfold int. rewrite (is_digit_not_sign c) by (inversion Hw; assumption).
    apply parse_digits_dec_from, Hw. }
  rewrite Ei, Hwv, Huv. f_equal.
  replace (2 * digits - lo - digits) with hi by lia.
  replace (2 * digits - lo) with (hi + digits) by lia.
  rewrite Z.pow_add_r by lia.
  pose proof (pow10_pos hi (Z.lt_le_incl _ _ Hhi)) as Ph.
  pose proof (pow10_pos digits (Z.lt_le_incl _ _ Hpos)) as Pd.
  rewrite Z.rem_mul_r by lia.
  rewrite Z.mul_comm, Z.div_add by lia.
  rewrite Z.div_small by (apply Z.mod_pos_bound; lia). lia.
Qed.

End DecimalFacts.

(** ** Orbits in a finite range *)

Module OrbitFacts.
Import Orbit.
Local Open Scope Z_scope.

Lemma repeated_entry (l : list Z) :
  ~ NoDup l ->
  exists i j : nat, (i < j < length l)%nat /\ nth i l 0 = nth j l 0.
Proof.
  induction l as [| a l IH]; intros Hdup.
  - exfalso. apply Hdup. constructor.
  - destruct (In_dec Z.eq_dec a l) as [Hin | Hnin].
    + destruct (In_nth l a 0 Hin) as (n & Hn & En).
      exists 0%nat, (S n). cbn [length nth]. split; [lia | now rewrite En].
    + destruct IH as (i & j & Hij & E).
      { intros Hnd. apply Hdup. constructor; assumption. }
      exists (S i), (S j). cbn [length nth]. split; [lia | exact E].
Qed.

(** Among the first [N + 1] values of a sequence confined to [0, N), two
    coincide. *)
Lemma pigeonhole (N : Z) (f : nat -> Z) :
  (forall i : nat, 0 <= f i < N) ->
  exists i j : nat, (i < j)%nat /\ Z.of_nat j <= N /\ f i = f j.
Proof.
  intros Hf. set (n := Z.to_nat N).
  assert (HN : 0 < N) by (specialize (Hf 0%nat); lia).
  set (l := map f (seq 0 (S n))).
  assert (Hdup : ~ NoDup l).
  { intros Hnd.
    assert (Hincl : incl l (map Z.of_nat (seq 0 n))).
    { intros x Hx. apply in_map_iff in Hx as (i & <- & _).
      apply in_map_iff. exists (Z.to_nat (f i)). specialize (Hf i).
      split; [lia | apply in_seq; lia]. }
    apply NoDup_incl_length in Hincl; [| exact Hnd].
    unfold l in Hincl. rewrite !length_map, !length_seq in Hincl. lia. }
  destruct (repeated_entry l Hdup) as (i & j & Hij & E).
  unfold l in Hij. rewrite length_map, length_seq in Hij.
  assert (Hnth : forall k, (k < S n)%nat -> nth k l 0 = f k).
  { intros k Hk. unfold l.
    rewrite (nth_indep _ 0 (f 0%nat)) by (rewrite length_map, length_seq; lia).
    rewrite map_nth, seq_nth by lia. reflexivity. }
  rewrite !Hnth in E by lia.
  exists i, j. repeat split; [lia | lia | exact E].
Qed.

Lemma iterate_add (step : Z -> option Z) (n k : nat) (x : Z) :
  iterate step (n + k) x
  = match iterate step n x with
    | Some y => iterate step k y
    | None => None
    end.
Proof.
  revert x. induction n as [| n IH]; intros x; cbn [Nat.add iterate].
  - reflexivity.
  - destruct (step x) as [y |]; [apply IH | reflexivity].
Qed.

Section Closed.

Variable step : Z -> option Z.
Variable N : Z.
Hypothesis closed :
  forall x, 0 <= x < N -> exists y, step x = Some y /\ 0 <= y < N.

Lemma iterate_closed (n : nat) (x : Z) :
  0 <= x < N -> exists y, iterate step n x = Some y /\ 0 <= y < N.
Proof.
  revert x. induction n as [| n IH]; intros x Hx; cbn [iterate].
  - exists x. split; [reflexivity | exact Hx].
  - destruct (closed x Hx) as (y & -> & Hy). apply IH, Hy.
Qed.

(** A generator closed on [0, N) revisits a state within [N] steps and
    cycles from there on. *)
Lemma orbit_repeats (x : Z) :
  0 <= x < N ->
  exists i p : nat,
    (0 < p)%nat /\ Z.of_nat (i + p) <= N /\
    forall k : nat, iterate step (i + p + k) x = iterate step (i + k) x.
Proof.
  intros Hx.
  set (f := fun n => match iterate step n x with Some y => y | None => 0 end).
  assert (Hf : forall n, iterate step n x = Some (f n) /\ 0 <= f n < N).
  { intros n. unfold f.
    destruct (iterate_closed n x Hx) as (y & -> & Hy). split; trivial. }
  destruct (pigeonhole N f (fun n => proj2 (Hf n))) as (i & j & Hij & Hj & E).
  exists i, (j - i)%nat. split; [lia |]. split; [lia |].
  intros k. replace (i + (j - i))%nat with j by lia.
  rewrite !iterate_add.
  rewrite (proj1 (Hf j)), (proj1 (Hf i)), E. reflexivity.
Qed.

End Closed.

End OrbitFacts.

(** ** More on the middle-square generator *)

Module MiddleSquareMore.
Import MiddleSquare Orbit MiddleSquareFacts DecimalFacts OrbitFacts.
Local Open Scope Z_scope.

Lemma middlesquare_iter_iterate (n : nat) (s digits : Z) :
  middlesquare_iter n s digits
  = iterate (fun x => middlesquare x digits) n s.
Proof.
  revert s. induction n as [| n IH]; intros s; cbn; [reflexivity |].
  destruct (middlesquare s digits); [apply IH | reflexivity].
Qed.

Lemma square_below (s digits : Z) :
  0 < digits -> - 10 ^ digits < s < 10 ^ digits ->
  s ^ 2 < 10 ^ (2 * digits).
Proof.
  intros Hd Hs. replace (2 * digits) with (digits + digits) by lia.
  rewrite Z.pow_add_r, Z.pow_2_r by lia. nia.
Qed.

Lemma middlesquare_closed (digits : Z) :
  0 < digits ->
  forall x, 0 <= x < 10 ^ digits ->
  exists y, middlesquare x digits = Some y /\ 0 <= y < 10 ^ digits.
Proof.
  intros Hd x Hx. eexists. split.
  - apply middlesquare_value; [exact Hd | apply square_below; lia].
  - apply Z.mod_pos_bound, pow10_pos. lia.
Qed.

(** X1: for every positive [digits], odd ones included, and every [s] with
    [|s| < 10 ^ digits], the string cutting of [middlesquare] computes
    [floor (s^2 / 10 ^ ceil (digits / 2)) mod 10 ^ digits]. *)
Theorem middlesquare_middle_digits (s digits : Z) :
  0 < digits -> - 10 ^ digits < s < 10 ^ digits ->
  middlesquare s digits
  = Some ((s ^ 2 / 10 ^ ((digits + 1) / 2)) mod 10 ^ digits).
Proof.
  intros Hd Hs. apply middlesquare_value; [exact Hd |].
  apply square_below; assumption.
Qed.

Lemma middlesquare_middle_digits_witness :
  middlesquare (-123) 3 = Some (((-123) ^ 2 / 10 ^ ((3 + 1) / 2)) mod 10 ^ 3).
Proof.
  apply (middlesquare_middle_digits (-123) 3); [lia | split; reflexivity].
Defined.

(** X2: with [digits = 0] the middle slice is empty, so [int] fails on it:
    the call raises for every [s]. *)
Theorem middlesquare_zero_digits (s : Z) : middlesquare s 0 = None.
Proof.
  unfold middlesquare. change (- 0 / 2) with 0.
  set (u := slice_from _ _). unfold slice_to, slice_index.
  change (0 <? 0) with false. cbv iota.
  replace (Z.min (len u) (Z.max 0 0)) with 0 by (unfold len; lia).
  reflexivity.
Qed.

(** X3: zero is absorbing: for every positive [digits],
    [middlesquare 0 digits] is 0, so a sequence that reaches 0 stays there. *)
Theorem middlesquare_zero_absorbing (digits : Z) (n : nat) :
  0 < digits ->
  middlesquare 0 digits = Some 0 /\ middlesquare_iter n 0 digits = Some 0.
Proof.
  intros Hd.
  assert (E : middlesquare 0 digits = Some 0).
  { rewrite middlesquare_value; [| exact Hd |].
    - rewrite Z.pow_0_l by lia.
      rewrite Z.div_0_l
        by (apply Z.pow_nonzero; [| Z.div_mod_to_equations]; lia).
      rewrite Z.mod_0_l by (apply Z.pow_nonzero; lia). reflexivity.
    - rewrite Z.pow_0_l by lia. apply pow10_pos. lia. }
  split; [exact E |].
  induction n as [| n IH]; [reflexivity |].
  cbn [middlesquare_iter]. rewrite E. exact IH.
Qed.

Lemma middlesquare_zero_absorbing_witness :
  middlesquare 0 4 = Some 0 /\ middlesquare_iter 7 0 4 = Some 0.
Proof. apply (middlesquare_zero_absorbing 4 7). lia. Defined.

(** X4: from a seed in [0, 10 ^ digits) the middle-square sequence is
    eventually periodic, with pre-period plus period at most [10 ^ digits]. *)
Theorem middlesquare_eventually_periodic (s digits : Z) :
  0 < digits -> 0 <= s < 10 ^ digits ->
  exists i p : nat,
    (0 < p)%nat /\ Z.of_nat (i + p) <= 10 ^ digits /\
    forall k : nat,
      middlesquare_iter (i + p + k) s digits
      = middlesquare_iter (i + k) s digits.
Proof.
  intros Hd Hs.
  destruct (orbit_repeats _ _ (middlesquare_closed digits Hd) s Hs)
    as (i & p & Hp & Hip & Hk).
  exists i, p. split; [exact Hp |]. split; [exact Hip |].
  intros k. rewrite !middlesquare_iter_iterate. apply Hk.
Qed.

Lemma middlesquare_eventually_periodic_witness :
  exists i p : nat,
    (0 < p)%nat /\ Z.of_nat (i + p) <= 10 ^ 4 /\
    forall k : nat,
      middlesquare_iter (i + p + k) 540 4 = middlesquare_iter (i + k) 540 4.
Proof. apply (middlesquare_eventually_periodic 540 4); lia. Defined.

End MiddleSquareMore.

(** ** More on the linear congruential generator *)

Module LcgMore.
Import Lcg Orbit LcgFacts OrbitFacts.
Local Open Scope Z_scope.

(** X5: [lcg] fails exactly when [m = 0]; otherwise the result lies between
    0 and [m]: in [0, m) for a positive modulus, in (m, 0] for a negative
    one. *)
Theorem lcg_result (x a b m : Z) :
  (m = 0 -> lcg x a b m = None) /\
  (0 < m -> exists s, lcg x a b m = Some s /\ 0 <= s < m) /\
  (m < 0 -> exists s, lcg x a b m = Some s /\ m < s <= 0).
Proof.
  split; [intros ->; reflexivity |].
  split; intros Hm; rewrite lcg_nonzero by lia; eexists;
    (split; [reflexivity |]).
  - apply Z.mod_pos_bound, Hm.
  - apply Z.mod_neg_bound, Hm.
Qed.

Lemma lcg_result_witness :
  lcg 5 3 4 0 = None /\
  (exists s, lcg 5 3 4 7 = Some s /\ 0 <= s < 7) /\
  (exists s, lcg 5 3 4 (-7) = Some s /\ -7 < s <= 0).
Proof.
  split; [apply (lcg_result 5 3 4 0); reflexivity |].
  split; [apply (lcg_result 5 3 4 7) | apply (lcg_result 5 3 4 (-7))]; lia.
Defined.

Lemma lcg_congruent (x y a b m : Z) :
  x mod m = y mod m -> lcg x a b m = lcg y a b m.
Proof.
  intros E. unfold lcg. destruct (Z.eqb_spec m 0) as [_ | Hm]; [reflexivity |].
  f_equal.
  rewrite <- (Z.add_mod_idemp_l (a * x)), <- (Z.add_mod_idemp_l (a * y))
    by exact Hm.
  rewrite <- (Z.mul_mod_idemp_r a x), <- (Z.mul_mod_idemp_r a y) by exact Hm.
  now rewrite E.
Qed.

(** X6: only the residue of the seed modulo [m] matters: seeds congruent
    modulo [m] generate the same sequence. *)
Theorem lcg_seq_congruent_seeds (n : nat) (x y a b m : Z) :
  x mod m = y mod m -> lcg_seq n x a b m = lcg_seq n y a b m.
Proof.
  intros E. destruct n as [| n]; [reflexivity |].
  cbn [lcg_seq]. now rewrite (lcg_congruent x y a b m E).
Qed.

Lemma lcg_seq_congruent_seeds_witness :
  lcg_seq 4 1234 123456 978564 6012119
  = lcg_seq 4 (1234 + 3 * 6012119) 123456 978564 6012119.
Proof.
  apply (lcg_seq_congruent_seeds 4 1234 (1234 + 3 * 6012119)). reflexivity.
Defined.

(** X7: with a positive modulus a run of [n] steps never fails: it prints
    exactly [n] states, all in [0, m). *)
Theorem lcg_seq_total (n : nat) (s a b m : Z) :
  0 < m ->
  exists l : list Z,
    lcg_seq n s a b m = Some l /\
    length l = n /\
    Forall (fun x => 0 <= x < m) l.
Proof.
  intros Hm. revert s. induction n as [| n IH]; intros s.
  - exists []. repeat split. constructor.
  - cbn [lcg_seq]. rewrite lcg_nonzero by lia.
    destruct (IH ((a * s + b) mod m)) as (l & -> & Hl & Hr).
    eexists. split; [reflexivity |]. split; [cbn; now rewrite Hl |].
    constructor; [apply Z.mod_pos_bound, Hm | exact Hr].
Qed.

Lemma lcg_seq_total_witness :
  exists l : list Z,
    lcg_seq 20 1234 123456 978564 6012119 = Some l /\
    length l = 20%nat /\
    Forall (fun x => 0 <= x < 6012119) l.
Proof. apply (lcg_seq_total 20 1234 123456 978564 6012119). lia. Defined.

Lemma lcg_seq_nth (a b m : Z) (n : nat) (seed : Z) (l : list Z) (k : nat) :
  lcg_seq n seed a b m = Some l -> (k < n)%nat ->
  nth_error l k = iterate (fun x => lcg x a b m) (S k) seed.
Proof.
  revert seed l k. induction n as [| n IH]; intros seed l k Hl Hk; [lia |].
  cbn [lcg_seq] in Hl. cbn [iterate].
  destruct (lcg seed a b m) as [s' |]; [| discriminate].
  destruct (lcg_seq n s' a b m) as [t |] eqn:Et; [| discriminate].
  injection Hl as <-. destruct k as [| k]; [reflexivity |].
  cbn [nth_error]. rewrite (IH s' t k Et) by lia. reflexivity.
Qed.

(** X8: with a positive modulus the printed sequence is eventually
    periodic: some position [i] and period [p > 0] with [i + p <= m] are
    such that every run repeats entry [i + k] at entry [i + p + k]. *)
Theorem lcg_seq_eventually_periodic (seed a b m : Z) :
  0 < m ->
  exists i p : nat,
    (0 < p)%nat /\ Z.of_nat (i + p) <= m /\
    forall (n : nat) (l : list Z) (k : nat),
      lcg_seq n seed a b m = Some l -> (i + p + k < n)%nat ->
      nth_error l (i + p + k) = nth_error l (i + k).
Proof.
  intros Hm. set (step := fun x => lcg x a b m).
  assert (Hclosed : forall x, 0 <= x < m ->
                      exists y, step x = Some y /\ 0 <= y < m).
  { intros x _. unfold step. rewrite lcg_nonzero by lia.
    eexists. split; [reflexivity | apply Z.mod_pos_bound, Hm]. }
  set (x1 := (a * seed + b) mod m).
  assert (Hx1 : 0 <= x1 < m) by (apply Z.mod_pos_bound, Hm).
  destruct (orbit_repeats step m Hclosed x1 Hx1) as (i & p & Hp & Hip & Hk).
  exists i, p. split; [exact Hp |]. split; [exact Hip |].
  intros n l k Hl Hn.
  rewrite (lcg_seq_nth a b m n seed l (i + p + k) Hl) by lia.
  rewrite (lcg_seq_nth a b m n seed l (i + k) Hl) by lia.
  cbn [iterate]. rewrite lcg_nonzero by lia. apply Hk.
Qed.

Lemma lcg_seq_eventually_periodic_witness :
  exists i p : nat,
    (0 < p)%nat /\ Z.of_nat (i + p) <= 7 /\
    forall (n : nat) (l : list Z) (k : nat),
      lcg_seq n 1 3 4 7 = Some l -> (i + p + k < n)%nat ->
      nth_error l (i + p + k) = nth_error l (i + k).
Proof. apply (lcg_seq_eventually_periodic 1 3 4 7). lia. Defined.


End LcgMore.

(** ** More order and addition facts on binary64 floats *)

Module FloatMore.
Import FloatOrder.

Lemma SFle_trans (x y z : spec_float) :
  SFleb x y = true -> SFleb y z = true -> SFleb x z = true.
Proof.
  unfold SFleb.
  destruct x as [sx | sx | | sx mx ex], y as [sy | sy | | sy my ey],
    z as [sz | sz | | sz mz ez];
    try destruct sx; try destruct sy; try destruct sz; sf_cases.
Qed.

Lemma SFeqb_self (x : spec_float) : SFeqb x x = false -> x = S754_nan.
Proof.
  unfold SFeqb.
  destruct x as [sx | sx | | sx mx ex]; try destruct sx; cbn;
    try discriminate; try reflexivity;
    rewrite Z.compare_refl;
    change (PosDef.Pos.compare_cont Eq mx mx) with (Pos.compare mx mx);
    rewrite Pos.compare_refl; discriminate.
Qed.

Lemma SFeqb_zero (x : spec_float) :
  SFeqb x (S754_zero false) = true -> exists s, x = S754_zero s.
Proof.
  unfold SFeqb.
  destruct x as [sx | sx | | sx mx ex]; try destruct sx; cbn;
    try discriminate; intros _; eexists; reflexivity.
Qed.

(** Adding a zero does not change how a sum compares. *)
Lemma SFle_add_zero (u c : spec_float) (s : bool) :
  SFleb u (SF64add c (S754_zero s)) = SFleb u c.
Proof.
  unfold SFleb, SF64add.
  destruct c as [sc | sc | | sc mc ec]; try destruct sc; destruct s;
    destruct u as [su | su | | su mu eu]; reflexivity.
Qed.

Lemma SFle_zero_add (u x : spec_float) :
  SFleb u (SF64add (S754_zero false) x) = SFleb u x.
Proof.
  unfold SFleb, SF64add.
  destruct x as [sx | sx | | sx mx ex]; try destruct sx;
    destruct u as [su | su | | su mu eu]; reflexivity.
Qed.

Lemma SFadd_nan (c z : spec_float) :
  c = S754_nan \/ z = S754_nan -> SF64add c z = S754_nan.
Proof.
  unfold SF64add. intros [-> | ->]; [reflexivity |].
  destruct c as [sc | sc | | sc mc ec]; reflexivity.
Qed.

Local Open Scope float_scope.

Lemma leb_trans (x y z : float) :
  (x <=? y) = true -> (y <=? z) = true -> (x <=? z) = true.
Proof. rewrite !FloatAxioms.leb_spec. apply SFle_trans. Qed.

Lemma is_nan_decoded (x : float) : is_nan x = true -> Prim2SF x = S754_nan.
Proof.
  unfold is_nan. rewrite FloatAxioms.eqb_spec. intros H.
  apply SFeqb_self. now destruct (SFeqb _ _).
Qed.

Lemma leb_nan_r (u c : float) : is_nan c = true -> (u <=? c) = false.
Proof.
  intros H. rewrite FloatAxioms.leb_spec, (is_nan_decoded c H).
  unfold SFleb. now destruct (Prim2SF u).
Qed.

Lemma add_is_nan (c z : float) :
  is_nan c = true \/ is_nan z = true -> is_nan (c + z) = true.
Proof.
  intros H. unfold is_nan.
  rewrite FloatAxioms.eqb_spec, FloatAxioms.add_spec, SFadd_nan;
    [reflexivity |].
  destruct H as [H | H]; [left | right]; apply is_nan_decoded, H.
Qed.

Lemma leb_add_zero (u c z : float) :
  (z =? 0) = true -> (u <=? c + z) = (u <=? c).
Proof.
  rewrite FloatAxioms.eqb_spec. intros H.
  apply SFeqb_zero in H as [s Hs].
  rewrite !FloatAxioms.leb_spec, FloatAxioms.add_spec, Hs. apply SFle_add_zero.
Qed.

Lemma leb_zero_add (u x : float) : (u <=? 0 + x) = (u <=? x).
Proof.
  rewrite !FloatAxioms.leb_spec, FloatAxioms.add_spec.
  change (Prim2SF 0) with (S754_zero false). apply SFle_zero_add.
Qed.

End FloatMore.

(** ** More on the samplers *)

Module SamplingMore.
Import Sampling SamplingFacts FloatOrder FloatMore.
Local Open Scope float_scope.

(** X10: for one draw, [sample_bernoulli] is monotone in [theta] and
    antitone in the draw. *)
Theorem sample_bernoulli_monotone (t1 t2 u1 u2 : float) :
  ((t1 <=? t2) = true ->
   (sample_bernoulli t1 u1 <= sample_bernoulli t2 u1)%Z) /\
  ((u1 <=? u2) = true ->
   (sample_bernoulli t1 u2 <= sample_bernoulli t1 u1)%Z).
Proof.
  unfold sample_bernoulli. split; intros H.
  - destruct (u1 <=? t1) eqn:E1; [| destruct (u1 <=? t2); lia].
    rewrite (leb_trans u1 t1 t2 E1 H). lia.
  - destruct (u2 <=? t1) eqn:E2; [| destruct (u1 <=? t1); lia].
    rewrite (leb_trans u1 u2 t1 H E2). lia.
Qed.

Lemma sample_bernoulli_monotone_witness :
  (sample_bernoulli 0.25 0.5 <= sample_bernoulli 0.75 0.5)%Z /\
  (sample_bernoulli 0.25 0.5 <= sample_bernoulli 0.25 0.125)%Z.
Proof.
  split.
  - apply (sample_bernoulli_monotone 0.25 0.75 0.5 0.5). reflexivity.
  - apply (sample_bernoulli_monotone 0.25 0.25 0.125 0.5). reflexivity.
Defined.

(** X11: [sample_discrete] is monotone in the draw: a larger draw never
    selects a smaller index. *)
Theorem sample_discrete_monotone (p : list float) (u1 u2 : float)
    (j1 j2 : nat) :
  (u1 <=? u2) = true ->
  sample_discrete p u1 = Some j1 ->
  sample_discrete p u2 = Some j2 ->
  (j1 <= j2)%nat.
Proof.
  intros Hu E1 E2.
  pose proof (sample_discrete_least p u1) as H1. rewrite E1 in H1.
  pose proof (sample_discrete_least p u2) as H2. rewrite E2 in H2.
  destruct H1 as (_ & _ & Hmin), H2 as (_ & Hle & _).
  destruct (Nat.le_gt_cases j1 j2) as [Hj | Hj]; [exact Hj |].
  specialize (Hmin j2 Hj).
  rewrite (leb_trans u1 u2 _ Hu Hle) in Hmin. discriminate.
Qed.

Lemma sample_discrete_monotone_witness :
  sample_discrete [0.25; 0.5; 0.125; 0.125] 0.125 = Some 0%nat /\
  sample_discrete [0.25; 0.5; 0.125; 0.125] 0.875 = Some 2%nat /\
  (0 <= 2)%nat.
Proof.
  split; [reflexivity |]. split; [reflexivity |].
  apply (sample_discrete_monotone [0.25; 0.5; 0.125; 0.125] 0.125 0.875 0 2);
    reflexivity.
Defined.

Lemma firstn_snoc (p : list float) (j : nat) (z : float) :
  nth_error p j = Some z -> firstn (S j) p = firstn j p ++ [z].
Proof.
  revert p. induction j as [| j IH]; intros [| x p] H; try discriminate.
  - cbn in H. injection H as ->. reflexivity.
  - cbn [nth_error] in H. cbn [firstn app]. f_equal.
    exact (IH p H).
Qed.

(** X12: an entry equal to zero at an index [j >= 1] is never selected. *)
Theorem sample_discrete_skips_zero (p : list float) (u z : float) (j : nat) :
  nth_error p (S j) = Some z -> (z =? 0) = true ->
  sample_discrete p u <> Some (S j).
Proof.
  intros Hz Hzero E.
  pose proof (sample_discrete_least p u) as H. rewrite E in H.
  destruct H as (_ & Hle & Hmin). specialize (Hmin j (Nat.lt_succ_diag_r j)).
  unfold cumsum, fsum in Hle, Hmin.
  rewrite (firstn_snoc p (S j) z Hz), fold_left_app in Hle.
  cbn [fold_left] in Hle. rewrite leb_add_zero in Hle by exact Hzero.
  congruence.
Qed.

Lemma sample_discrete_skips_zero_witness :
  sample_discrete [0.5; 0; 0.5] 0.5 <> Some 1%nat /\
  sample_discrete [0.5; 0; 0.5] 0.75 <> Some 1%nat.
Proof.
  split.
  - apply (sample_discrete_skips_zero [0.5; 0; 0.5] 0.5 0 0); reflexivity.
  - apply (sample_discrete_skips_zero [0.5; 0; 0.5] 0.75 0 0); reflexivity.
Defined.

Lemma fold_add_nan (l : list float) (c : float) :
  is_nan c = true \/ Exists (fun x => is_nan x = true) l ->
  is_nan (fold_left PrimFloat.add l c) = true.
Proof.
  revert c. induction l as [| x l IH]; intros c H; cbn [fold_left].
  - destruct H as [H | H]; [exact H | inversion H].
  - apply IH. destruct H as [H | H].
    + left. apply add_is_nan. now left.
    + inversion H as [? ? Hx | ? ? Hl]; subst.
      * left. apply add_is_nan. now right.
      * now right.
Qed.

(** X13: a NaN entry poisons the running total: if [p[k]] is NaN, no index
    from [k] on is ever returned. *)
Theorem sample_discrete_nan_entry (p : list float) (u z : float) (k j : nat) :
  nth_error p k = Some z -> is_nan z = true ->
  sample_discrete p u = Some j -> (j < k)%nat.
Proof.
  intros Hz Hnan E.
  pose proof (sample_discrete_least p u) as H. rewrite E in H.
  destruct H as (_ & Hle & _).
  destruct (Nat.le_gt_cases k j) as [Hkj | Hkj]; [| exact Hkj].
  exfalso. unfold cumsum, fsum in Hle.
  rewrite leb_nan_r in Hle; [discriminate |].
  apply fold_add_nan. right. apply Exists_exists. exists z.
  split; [| exact Hnan].
  apply (nth_error_In _ k). rewrite nth_error_firstn.
  destruct (Nat.ltb_spec k (S j)); [exact Hz | lia].
Qed.

Lemma sample_discrete_nan_entry_witness :
  sample_discrete [0.5; nan; 0.5] 0.25 = Some 0%nat /\ (0 < 1)%nat.
Proof.
  split; [reflexivity |].
  apply (sample_discrete_nan_entry [0.5; nan; 0.5] 0.25 nan 1 0); reflexivity.
Defined.

Lemma sample_discrete_loop_app (p q : list float) (u c : float) (j0 : nat) :
  sample_discrete_loop (p ++ q) u c j0
  = match sample_discrete_loop p u c j0 with
    | Some j => Some j
    | None =>
        sample_discrete_loop q u (fold_left PrimFloat.add p c)
                             (j0 + length p)
    end.
Proof.
  revert c j0. induction p as [| x p IH]; intros c j0.
  - cbn. now rewrite Nat.add_0_r.
  - cbn [app sample_discrete_loop fold_left length].
    destruct (u <=? c + x); [reflexivity |].
    rewrite IH. now rewrite Nat.add_succ_r.
Qed.

(** X14: appending entries never changes an index already found; when the
    first list is exhausted the search continues in the appended entries
    from the total and the index reached. *)
Theorem sample_discrete_app (p q : list float) (u : float) :
  sample_discrete (p ++ q) u
  = match sample_discrete p u with
    | Some j => Some j
    | None => sample_discrete_loop q u (fsum p) (length p)
    end.
Proof. unfold sample_discrete. apply sample_discrete_loop_app. Qed.

(** X17: a Bernoulli trial is the first bin of a discrete draw:
    [sample_bernoulli theta u] is 1 exactly when [sample_discrete] on a list
    that starts with [theta] returns index 0 for the same draw. *)
Theorem sample_bernoulli_first_bin (theta u : float) (q : list float) :
  sample_bernoulli theta u = 1%Z <->
  sample_discrete (theta :: q) u = Some 0%nat.
Proof.
  unfold sample_bernoulli, sample_discrete. cbn [sample_discrete_loop].
  rewrite leb_zero_add. destruct (u <=? theta).
  - split; reflexivity.
  - split; [discriminate |].
    intros H. pose proof (sample_discrete_loop_spec q u (0 + theta) 1) as S.
    rewrite H in S. destruct S as (k & Hk & _). lia.
Qed.

End SamplingMore.
